(** * The state space model core of the notebook [mamba.ipynb]

    A shallow embedding of the discretization, the recurrent scan, the
    convolution kernel, the causal convolution and the HiPPO matrix of the
    notebook, with the properties of its specification.

    Arrays of floats are read as vectors and matrices over an ordered field
    [F]: arithmetic is exact, and "equal up to tolerance" is equality.
    An [N x N] array is a ['M[F]_N], the state (shape [(N,)]) a column
    ['cV[F]_N], a sequence (shape [(L,)]) a [seq F].  Shapes that do not fit
    are excluded by these types.  Python exceptions are the [Raise] outcomes
    of the [result] type. *)

From HB Require Import structures.
From mathcomp Require Import boot order algebra.
From Stdlib Require Import String.

Set Implicit Arguments.
Unset Strict Implicit.
Unset Printing Implicit Defensive.

Import GRing.Theory Num.Theory Order.Theory.
Local Open Scope ring_scope.

(** ** Exceptions and results *)

(** The Python exceptions the modelled cells can raise. *)
Inductive exn : Type :=
  | AssertionError
  | NameError of string
  | AttributeError of string
  | ValueError
  | ZeroDivisionError.

Inductive result (T : Type) : Type :=
  | Ok of T
  | Raise of exn.

Arguments Ok {T} _.
Arguments Raise {T} _.

Definition bind {S T : Type} (c : result S) (k : S -> result T) : result T :=
  match c with
  | Ok x => k x
  | Raise e => Raise e
  end.

Notation "x <- c ;; k" := (bind c (fun x => k))
  (at level 61, c at next level, right associativity).

Definition is_ok {T : Type} (c : result T) : bool :=
  if c is Ok _ then true else false.

(** [assert b] *)
Definition py_assert (b : bool) : result unit :=
  if b then Ok tt else Raise AssertionError.

(** [1.0 / L] for a Python integer [L]: the division by zero raises. *)
Definition py_inverse (F : fieldType) (L : nat) : result F :=
  if L == 0%N then Raise ZeroDivisionError else Ok (1 / L%:R).

(** ** Names bound at the top level of the notebook *)

(** What a global name is bound to, as far as the modelled code cares:
    the module [jax.numpy], or anything else. *)
Inductive pyobj : Type := JaxNumpy | OtherObject.

(** The imports of the first cell, [rng], and the notebook's functions and
    classes, in the order they are bound.  No cell binds [mp], and no
    builtin has that name. *)
Definition notebook_globals : seq (string * pyobj) :=
  [:: ("partial", OtherObject); ("jax", OtherObject); ("np", JaxNumpy);
      ("nn", OtherObject); ("lecun_normal", OtherObject);
      ("normal", OtherObject); ("eigh", OtherObject); ("inv", OtherObject);
      ("matrix_power", OtherObject); ("convolve", OtherObject);
      ("plt", OtherObject); ("seaborn", OtherObject); ("Camera", OtherObject);
      ("rng", OtherObject); ("random_SSM", OtherObject);
      ("discretize", OtherObject); ("scan_SSM", OtherObject);
      ("run_SSM", OtherObject); ("example_mass", OtherObject);
      ("example_force", OtherObject); ("example_ssm", OtherObject);
      ("K_conv", OtherObject); ("causal_convolution", OtherObject);
      ("test_cnn_is_rnn", OtherObject);
      ("log_step_initializer", OtherObject); ("SSMLayer", OtherObject);
      ("cloneLayer", OtherObject); ("SequenceBlock", OtherObject);
      ("Embedding", OtherObject); ("StackedModel", OtherObject);
      ("BatchStackedModel", OtherObject); ("make_HiPPO", OtherObject);
      ("example_legendre", OtherObject)]%string.

Fixpoint lookup_name (x : string) (env : seq (string * pyobj)) : option pyobj :=
  match env with
  | [::] => None
  | (y, o) :: env' => if String.eqb x y then Some o else lookup_name x env'
  end.

(** Reading a global name: a name that is not bound raises [NameError]. *)
Definition load_global (x : string) : result pyobj :=
  if lookup_name x notebook_globals is Some o then Ok o
  else Raise (NameError x).

(** ** Library functions on sequences *)

Section Sequences.

Variable F : realFieldType.

(** [np.pad(u, (0, k))]: [k] zeros appended. *)
Definition np_pad (u : seq F) (k : nat) : seq F := u ++ nseq k 0.

(** The attribute [pad] of an object: [jax.numpy] has it. *)
Definition getattr_pad (o : pyobj) : result (seq F -> nat -> seq F) :=
  if o is JaxNumpy then Ok np_pad else Raise (AttributeError "pad").

(** [jax.scipy.signal.convolve(in1, in2, mode="full")] on one-dimensional
    arrays: the full discrete linear convolution, of length
    [len(in1) + len(in2) - 1], with [out[n]] the sum of [in1[m] * in2[n-m]].
    The library refuses zero-size arrays with a [ValueError]. *)
Definition convolve (in1 in2 : seq F) : result (seq F) :=
  if (size in1 == 0%N) || (size in2 == 0%N) then Raise ValueError
  else Ok (mkseq (fun n => \sum_(m < n.+1) nth 0 in1 m * nth 0 in2 (n - m))
                 (size in1 + size in2 - 1)).

(** [jax.lax.scan(f, init, xs)]: the carry is threaded through [xs] in
    order, the outputs are stacked in the same order. *)
Fixpoint scan {C X Y : Type} (f : C -> X -> C * Y) (init : C) (xs : seq X)
  : C * seq Y :=
  match xs with
  | [::] => (init, [::])
  | x :: xs' =>
      let: (c, y) := f init x in
      let: (cL, ys) := scan f c xs' in
      (cL, y :: ys)
  end.

(** [np.array(rows)] of a list of rows. *)
Definition np_array (m n : nat) (rows : seq (seq F)) : 'M[F]_(m, n) :=
  \matrix_(i, j) nth 0 (nth [::] rows i) j.

(** The mass on a spring of the notebook. *)
Definition example_mass (k b m : F) : 'M[F]_2 * 'cV[F]_2 * 'rV[F]_2 :=
  let A := np_array 2 2 [:: [:: 0; 1]; [:: - k / m; - b / m]] in
  let B := np_array 2 1 [:: [:: 0]; [:: 1 / m]] in
  let C := np_array 1 2 [:: [:: 1; 0]] in
  (A, B, C).

(** An instance of the transforms, for the examples: a spectrum is written
    as the signal it is the transform of.  Both transforms keep their
    argument, an empty one is refused, and the product of two spectra is the
    circular convolution of their signals. *)
Definition signal_rfft (x : seq F) : result (seq F) :=
  if x is [::] then Raise ValueError else Ok x.

Definition signal_irfft (X : seq F) : result (seq F) := Ok X.

Definition circular_convolve (a b : seq F) : seq F :=
  mkseq (fun n => \sum_(m < size a)
                    nth 0 a m * nth 0 b ((n + size a - m) %% size a))
        (size a).

(** [np.exp] for the examples over the rationals: its first-order
    approximation at 0. *)
Definition exp1 (x : F) : F := 1 + x.

(** [Ab^l] in the specification's words: the power of the ring of the
    square matrices of a positive size.  The only matrix of size 0 is the
    empty one, and it is each of its powers. *)
Definition mx_power (N : nat) : 'M[F]_N -> nat -> 'M[F]_N :=
  match N return 'M[F]_N -> nat -> 'M[F]_N with
  | 0%N => fun A _ => A
  | n.+1 => fun A l => A ^+ l
  end.

(** A root for the examples over the rationals: one step of Heron's method
    from 1, which is never below the root. *)
Definition sqrt1 (x : F) : F := (x + 1) / 2%:R.

(** Arrays of one shape added entry by entry. *)
Definition add_arrays (V : zmodType) (x y : seq V) : seq V :=
  [seq p.1 + p.2 | p <- zip x y].

(** The parameters of one channel of [SSMLayer]: the class is mapped over
    the channels by [cloneLayer], each channel with parameters and a cache
    of its own.  [D] and [log_step] have shape [(1,)]. *)
Record SSMLayer_params (N : nat) : Type := SSMLayerParams {
  param_A : 'M[F]_N;
  param_B : 'cV[F]_N;
  param_C : 'rV[F]_N;
  param_D : F;
  param_log_step : F
}.

End Sequences.

(** ** Inputs of the examples, over the rationals *)

(** The mass on a spring of the notebook's example, [k = 40], [b = 5] and
    [m = 1], with its step [1 / L] for [L = 100]. *)
Definition A_mass : 'M[rat]_2 := (example_mass 40%:R 5%:R 1).1.1.
Definition B_mass : 'cV[rat]_2 := (example_mass 40%:R 5%:R 1).1.2.
Definition C_mass : 'rV[rat]_2 := (example_mass 40%:R 5%:R 1).2.
Definition step_mass : rat := 1 / 100%:R.

(** A system with a singular [I - step/2 A] at [step = 1]: [A = 2 I]. *)
Definition A_singular : 'M[rat]_2 := (2%:R)%:M.

(** Two arrays of different lengths. *)
Definition u_ex : seq rat := [:: 1; 2%:R].
Definition K_ex : seq rat := [:: 3%:R].

(** A second input of the length of [u_ex], and a layer over the mass on a
    spring. *)
Definition v_ex : seq rat := [:: 3%:R; 4%:R].
Definition layer_mass : SSMLayer_params rat 2 :=
  SSMLayerParams A_mass B_mass C_mass 1 (- 1).

(** ** The notebook's functions *)

Section SSM.

Variable F : realFieldType.
Variable N : nat.

(** [jax.numpy.linalg.inv], a library function, is a parameter: it is total
    (jax raises nothing on a singular matrix, it returns non-finite
    entries), and the properties that need the inverse assume
    [inv_spec] of it. *)
Variable inv : 'M[F]_N -> 'M[F]_N.

Definition inv_spec : Prop :=
  forall M : 'M[F]_N, M \in unitmx -> inv M = invmx M.

(** [np.fft.rfft] and [np.fft.irfft], library functions over arrays of
    complex numbers, are parameters, and so is the type of these arrays
    with its elementwise product. *)
Variable spectrum : Type.
Variable rfft : seq F -> result spectrum.
Variable irfft : spectrum -> result (seq F).
Variable spectrum_mul : spectrum -> spectrum -> spectrum.

(** [matrix_power(Ab, l)] for [l >= 0]. *)
Fixpoint matrix_power (M : 'M[F]_N) (l : nat) : 'M[F]_N :=
  if l is l'.+1 then M *m matrix_power M l' else 1%:M.

(** [BL * step]: every entry times the scalar. *)
Definition times_scalar (M : 'M[F]_N) (s : F) : 'M[F]_N :=
  map_mx (fun x => x * s) M.

Definition discretize (A : 'M[F]_N) (B : 'cV[F]_N) (C : 'rV[F]_N) (step : F)
  : result ('M[F]_N * 'cV[F]_N * 'rV[F]_N) :=
  let I := 1%:M in
  let BL := inv (I - (step / 2%:R) *: A) in
  let Ab := BL *m (I + (step / 2%:R) *: A) in
  let Bb := times_scalar BL step *m B in
  Ok (Ab, Bb, C).

(** An element [u_k] of the input has shape [(1,)]: [Bb @ u_k] is a
    matrix-vector product, and [y_k] has shape [(1,)] too. *)
Definition step_SSM (Ab : 'M[F]_N) (Bb : 'cV[F]_N) (Cb : 'rV[F]_N)
    (x_k_1 : 'cV[F]_N) (u_k : F) : 'cV[F]_N * 'M[F]_1 :=
  let x_k := Ab *m x_k_1 + Bb *m (u_k%:M : 'M[F]_1) in
  let y_k := Cb *m x_k in
  (x_k, y_k).

Definition scan_SSM (Ab : 'M[F]_N) (Bb : 'cV[F]_N) (Cb : 'rV[F]_N)
    (u : seq F) (x0 : 'cV[F]_N) : 'cV[F]_N * seq 'M[F]_1 :=
  scan (step_SSM Ab Bb Cb) x0 u.

Definition run_SSM (A : 'M[F]_N) (B : 'cV[F]_N) (C : 'rV[F]_N) (u : seq F)
  : result (seq 'M[F]_1) :=
  let L := size u in
  step <- py_inverse F L ;;
  ssmb <- discretize A B C step ;;
  let: (Ab, Bb, Cb) := ssmb in
  Ok (scan_SSM Ab Bb Cb u 0).2.

(** [.reshape()] turns the [1 x 1] product into a scalar. *)
Definition K_conv (Ab : 'M[F]_N) (Bb : 'cV[F]_N) (Cb : 'rV[F]_N) (L : nat)
  : seq F :=
  [seq (Cb *m matrix_power Ab l *m Bb) 0 0 | l <- iota 0 L].

Definition causal_convolution (u K : seq F) (nofft : bool) : result (seq F) :=
  if nofft then
    full <- convolve u K ;;
    Ok (take (size u) full)
  else
    _ <- py_assert (size K == size u) ;;
    ud <- rfft (np_pad u (size K)) ;;
    mp <- load_global "mp" ;;
    mp_pad <- getattr_pad F mp ;;
    Kd <- rfft (mp_pad K (size u)) ;;
    let out := spectrum_mul ud Kd in
    full <- irfft out ;;
    Ok (take (size u) full).

(** [.ravel()] of the [(L, 1)] array of outputs. *)
Definition ravel (y : seq 'M[F]_1) : seq F :=
  map (fun y_k : 'M[F]_1 => y_k 0 0) y.

(** The test, with the random draws [A], [B], [C] and [u] as arguments;
    [L] is the length of [u], and [np.allclose] is equality. *)
Definition test_cnn_is_rnn (A : 'M[F]_N) (B : 'cV[F]_N) (C : 'rV[F]_N)
    (u : seq F) (step : F) : result unit :=
  let L := size u in
  rec <- run_SSM A B C u ;;
  ssmb <- discretize A B C step ;;
  let: (Ab, Bb, Cb) := ssmb in
  conv <- causal_convolution u (K_conv Ab Bb Cb L) false ;;
  py_assert (ravel rec == conv).

(** [np.sqrt], a library function, is a parameter. *)
Variable sqrt : F -> F.

(** [np.arange(N)] *)
Definition arange : 'rV[F]_N := \row_j (j : nat)%:R.

(** [np.tril]: the entries above the diagonal become zero. *)
Definition tril (M : 'M[F]_N) : 'M[F]_N :=
  \matrix_(i, j) (if (j <= i)%N then M i j else 0).

Definition make_HiPPO : 'M[F]_N :=
  let P := map_mx sqrt (map_mx (fun x => 1 + 2%:R * x) arange) in
  let A := \matrix_(i, j) (P 0 i * P 0 j) in
  let A := tril A - diag_mx arange in
  - A.

(** [np.exp], a library function, is a parameter. *)
Variable exp : F -> F.

(** [SSMLayer.setup]: the discretized system [self.ssm] and the kernel
    [self.K] of length [l_max]. *)
Definition SSMLayer_setup (p : SSMLayer_params F N) (l_max : nat)
  : result (('M[F]_N * 'cV[F]_N * 'rV[F]_N) * seq F) :=
  let step := exp (param_log_step p) in
  ssm <- discretize (param_A p) (param_B p) (param_C p) step ;;
  let: (Ab, Bb, Cb) := ssm in
  Ok (ssm, K_conv Ab Bb Cb l_max).

(** [SSMLayer.__call__] on one channel.  The cache [self.x_k_1.value] is an
    argument and is returned beside the outputs; [mutable_cache] is
    [self.is_mutable_collection("cache")]. *)
Definition SSMLayer_call (p : SSMLayer_params F N) (l_max : nat)
    (decode mutable_cache : bool) (x_k_1 : 'cV[F]_N) (u : seq F)
  : result (seq F * 'cV[F]_N) :=
  attrs <- SSMLayer_setup p l_max ;;
  let: ((Ab, Bb, Cb), K) := attrs in
  let Du := [seq param_D p * u_k | u_k <- u] in
  if ~~ decode then
    conv <- causal_convolution u K false ;;
    Ok (add_arrays conv Du, x_k_1)
  else
    let: (x_k, y_s) := scan_SSM Ab Bb Cb u x_k_1 in
    let cache := if mutable_cache then x_k else x_k_1 in
    Ok (add_arrays (ravel y_s) Du, cache).

(** ** The recurrence of the specification *)

(** The states in the specification's words: [x_0 = x0] and
    [x_k = Ab x_(k-1) + Bb u_k] for [k = 1..L], with [u_k] the [k]-th
    element of the input, counted from one. *)
Fixpoint states (Ab : 'M[F]_N) (Bb : 'cV[F]_N) (u : seq F) (x0 : 'cV[F]_N)
    (k : nat) : 'cV[F]_N :=
  if k is k'.+1 then
    Ab *m states Ab Bb u x0 k' + Bb *m ((nth 0 u k')%:M : 'M[F]_1)
  else x0.

(** The HiPPO matrix in the specification's words: [P[i] = sqrt(1 + 2i)],
    [M[i,j] = P[i] P[j]], and [A = -(tril(M) - diag(0, 1, .., N-1))], entry
    by entry. *)
Definition hippo_P (i : nat) : F := sqrt (1 + 2%:R * i%:R).

Definition hippo_M (i j : nat) : F := hippo_P i * hippo_P j.

Definition HiPPO_spec : 'M[F]_N :=
  \matrix_(i, j) - ((if (j <= i)%N then hippo_M i j else 0)
                    - (if i == j then (i : nat)%:R else 0)).

(** The norm the limit is stated in: the sum of the absolute values of the
    entries.  It bounds every entry, and it is submultiplicative. *)
Definition mx_norm (m n : nat) (M : 'M[F]_(m, n)) : F :=
  \sum_i \sum_j `|M i j|.

(** ** Properties of the recurrence *)

Section Recurrence.

Variables (Ab : 'M[F]_N) (Bb : 'cV[F]_N) (Cb : 'rV[F]_N).

Lemma states_cons (a : F) (u : seq F) (x0 : 'cV[F]_N) (k : nat) :
  states Ab Bb (a :: u) x0 k.+1 = states Ab Bb u (step_SSM Ab Bb Cb x0 a).1 k.
Proof. by elim: k => [|k IHk] //=; rewrite -IHk. Qed.

Lemma scan_SSM_cons (a : F) (u : seq F) (x0 : 'cV[F]_N) :
  scan_SSM Ab Bb Cb (a :: u) x0 =
    ((scan_SSM Ab Bb Cb u (step_SSM Ab Bb Cb x0 a).1).1,
     Cb *m (step_SSM Ab Bb Cb x0 a).1
       :: (scan_SSM Ab Bb Cb u (step_SSM Ab Bb Cb x0 a).1).2).
Proof. by rewrite /scan_SSM /=; case: (scan _ _ u). Qed.

Lemma scan_SSM_states (u : seq F) (x0 : 'cV[F]_N) :
  scan_SSM Ab Bb Cb u x0 =
    (states Ab Bb u x0 (size u),
     [seq Cb *m states Ab Bb u x0 k.+1 | k <- iota 0 (size u)]).
Proof.
elim: u x0 => [|a v IHv] x //.
rewrite scan_SSM_cons IHv states_cons -[size (a :: v)]/(size v).+1.
rewrite -[iota 0 _.+1]/(0%N :: iota 1 _) map_cons (iotaDl 1 0) -map_comp.
congr (_, _ :: _); apply: eq_map => k.
by rewrite -[RHS]/(Cb *m states Ab Bb (a :: v) x (1 + k).+1) add1n states_cons.
Qed.

(** C7: [scan_SSM Ab Bb Cb u x0] is the pair of the final state [x_L] and
    of the outputs [y_1 .. y_L], in the order of the input, where
    [x_k = Ab x_(k-1) + Bb u_k] from [x_0 = x0] and [y_k = Cb x_k]; the
    outputs are as many as the inputs. *)
Theorem scan_SSM_correct (u : seq F) (x0 : 'cV[F]_N) :
  scan_SSM Ab Bb Cb u x0 =
    (states Ab Bb u x0 (size u),
     [seq Cb *m states Ab Bb u x0 k.+1 | k <- iota 0 (size u)])
  /\ size (scan_SSM Ab Bb Cb u x0).2 = size u.
Proof. by split; rewrite scan_SSM_states //= size_map size_iota. Qed.

(** From the zero state, the state after [k + 1] inputs is the sum of the
    inputs carried through the powers of [Ab]. *)
Lemma states_from_zero (u : seq F) (k : nat) :
  states Ab Bb u 0 k.+1 =
    \sum_(j < k.+1) nth 0 u j *: (matrix_power Ab (k - j) *m Bb).
Proof.
elim: k => [|k IHk].
  by rewrite big_ord_recl big_ord0 /= mulmx0 add0r addr0 mul_mx_scalar mul1mx.
rewrite [LHS]/= -/(states Ab Bb u 0 k.+1) IHk [RHS]big_ord_recr /= subnn /= mul1mx.
rewrite mul_mx_scalar mulmx_sumr; congr (_ + _); apply: eq_bigr => j _.
by rewrite -scalemxAr mulmxA subSn // -ltnS.
Qed.

(** ** Properties of the kernel *)

Lemma size_K_conv (L : nat) : size (K_conv Ab Bb Cb L) = L.
Proof. by rewrite /K_conv size_map size_iota. Qed.

Lemma nth_K_conv (L l : nat) :
  (l < L)%N -> nth 0 (K_conv Ab Bb Cb L) l = (Cb *m matrix_power Ab l *m Bb) 0 0.
Proof.
by move=> ltlL; rewrite /K_conv (nth_map 0%N) ?size_iota // nth_iota // add0n.
Qed.

End Recurrence.

(** ** Properties of the discretization *)

Lemma times_scalarE (M : 'M[F]_N) (s : F) : times_scalar M s = s *: M.
Proof. by apply/matrixP=> i j; rewrite !mxE mulrC. Qed.

(** C2: when [I - step/2 A] is invertible and [inv] returns the inverse of
    an invertible matrix, [discretize] returns
    [(BL (I + step/2 A), step (BL B), C)] for the inverse [BL] of
    [I - step/2 A], whatever the sign of [step]. *)
Theorem discretize_bilinear (A : 'M[F]_N) (B : 'cV[F]_N) (C : 'rV[F]_N)
    (step : F) :
  inv_spec -> (1%:M - (step / 2%:R) *: A) \in unitmx ->
  exists BL : 'M[F]_N,
    [/\ BL *m (1%:M - (step / 2%:R) *: A) = 1%:M,
        (1%:M - (step / 2%:R) *: A) *m BL = 1%:M
      & discretize A B C step =
          Ok (BL *m (1%:M + (step / 2%:R) *: A), step *: (BL *m B), C)].
Proof.
move=> inv_ok unitM; exists (invmx (1%:M - (step / 2%:R) *: A)).
split; [exact: mulVmx | exact: mulmxV |].
by rewrite /discretize (inv_ok _ unitM) times_scalarE scalemxAl.
Qed.

(** C3, as the code has it: [discretize] tests nothing and raises nothing;
    for every [A], [B], [C] and [step], and whatever [inv] returns for
    [I - step/2 A], invertible or not, it returns the triple built from
    that value. *)
Theorem discretize_never_raises (A : 'M[F]_N) (B : 'cV[F]_N) (C : 'rV[F]_N)
    (step : F) :
  let BL := inv (1%:M - (step / 2%:R) *: A) in
  discretize A B C step =
    Ok (BL *m (1%:M + (step / 2%:R) *: A), times_scalar BL step *m B, C)
  /\ is_ok (discretize A B C step) = true.
Proof. by []. Qed.

(** ** Properties of the causal convolution *)

Lemma convolve_sumC (u K : seq F) (n : nat) :
  \sum_(m < n.+1) nth 0 u m * nth 0 K (n - m) =
  \sum_(m < n.+1) nth 0 K m * nth 0 u (n - m).
Proof.
rewrite (reindex_inj rev_ord_inj) /=; apply: eq_bigr => m _.
have le_mn: (m <= n)%N by rewrite -ltnS.
by rewrite subSS subKn // mulrC.
Qed.

Lemma convolve_nonempty (u K : seq F) :
  (0 < size u)%N -> (0 < size K)%N ->
  convolve u K =
    Ok (mkseq (fun n => \sum_(m < n.+1) nth 0 u m * nth 0 K (n - m))
              (size u + size K - 1)).
Proof. by rewrite /convolve !lt0n => /negPf -> /negPf ->. Qed.

Lemma convolve_empty (u K : seq F) :
  (size u == 0%N) || (size K == 0%N) -> convolve u K = Raise ValueError.
Proof. by rewrite /convolve => ->. Qed.

(** The direct mode on non-empty arrays: no test of the lengths, and the
    first [len(u)] entries of the full convolution. *)
Lemma causal_convolution_nofft (u K : seq F) :
  (0 < size u)%N -> (0 < size K)%N ->
  causal_convolution u K true =
    Ok (mkseq (fun n => \sum_(m < n.+1) nth 0 K m * nth 0 u (n - m)) (size u)).
Proof.
move=> u_gt0 K_gt0; rewrite /causal_convolution convolve_nonempty //=.
have le_uK: (size u <= size u + size K - 1)%N by rewrite -addnBA // leq_addr.
congr Ok; apply: (@eq_from_nth _ 0) => [|n]; rewrite size_takel ?size_mkseq //.
move=> lt_nu; have lt_nuK := leq_trans lt_nu le_uK.
by rewrite nth_take // !nth_mkseq // convolve_sumC.
Qed.

(** The default mode never returns: the name [mp] is read after the
    assertion and the first transform, and it is not bound. *)
Lemma causal_convolution_fft (u K : seq F) :
  causal_convolution u K false =
    if size K == size u then
      _ <- rfft (np_pad u (size K)) ;; Raise (NameError "mp")
    else Raise AssertionError.
Proof.
by rewrite /causal_convolution; case: (size K == size u).
Qed.

Lemma causal_convolution_fft_not_ok (u K : seq F) :
  is_ok (causal_convolution u K false) = false.
Proof.
by rewrite causal_convolution_fft; case: ifP => // _; case: (rfft _).
Qed.


(** C5, as the code has it: with [len(K) != len(u)] the default mode fails,
    on its assertion; the direct mode compares no lengths and returns for
    every non-empty [u] and [K], so also when [len(K) = len(u) >= 1]. *)
Theorem causal_convolution_shapes (u K : seq F) :
  (size K != size u -> causal_convolution u K false = Raise AssertionError)
  /\ ((0 < size u)%N -> (0 < size K)%N ->
      is_ok (causal_convolution u K true) = true).
Proof.
split=> [/negPf neq_Ku|u_gt0 K_gt0].
  by rewrite causal_convolution_fft neq_Ku.
by rewrite causal_convolution_nofft.
Qed.

(** C6, on the code: the two modes do not agree.  The default mode never
    returns a value, whatever its arguments; the direct mode returns one
    exactly when both arrays are non-empty. *)
Theorem causal_convolution_modes (u K : seq F) :
  is_ok (causal_convolution u K false) = false
  /\ is_ok (causal_convolution u K true) = (0 < size u)%N && (0 < size K)%N.
Proof.
split; first exact: causal_convolution_fft_not_ok.
case: (posnP (size u)) => [u0|u_gt0].
  by rewrite /causal_convolution convolve_empty // u0.
case: (posnP (size K)) => [K0|K_gt0]; last by rewrite causal_convolution_nofft.
by rewrite /causal_convolution convolve_empty // K0 orbT.
Qed.

(** ** The two evaluations of a discrete system *)

Section Equivalence.

Variables (Ab : 'M[F]_N) (Bb : 'cV[F]_N) (Cb : 'rV[F]_N).

Lemma nth_scan_SSM (u : seq F) (n : nat) :
  (n < size u)%N ->
  nth 0 (ravel (scan_SSM Ab Bb Cb u 0).2) n =
    \sum_(j < n.+1) nth 0 u j * nth 0 (K_conv Ab Bb Cb (size u)) (n - j).
Proof.
move=> lt_nu; rewrite scan_SSM_states /ravel -map_comp.
rewrite (nth_map 0%N) ?size_iota // nth_iota // add0n /=.
rewrite -/(states Ab Bb u 0 n.+1) states_from_zero mulmx_sumr summxE.
apply: eq_bigr => j _; rewrite -scalemxAr mxE mulmxA nth_K_conv //.
by apply: leq_ltn_trans lt_nu; apply: leq_subr.
Qed.

(** X1: the recurrence from the zero state and the direct mode of the
    convolution with the kernel of the same system give the same outputs,
    for every non-empty input. *)
Theorem cnn_is_rnn_nofft (u : seq F) :
  (0 < size u)%N ->
  causal_convolution u (K_conv Ab Bb Cb (size u)) true =
    Ok (ravel (scan_SSM Ab Bb Cb u 0).2).
Proof.
move=> u_gt0; rewrite causal_convolution_nofft ?size_K_conv //.
congr Ok; apply: (@eq_from_nth _ 0) => [|n].
  by rewrite size_mkseq scan_SSM_states /ravel !size_map size_iota.
rewrite size_mkseq => lt_nu.
by rewrite nth_mkseq // nth_scan_SSM // convolve_sumC.
Qed.

(** C1, on the code: the convolution side of the equality is called in the
    default mode, which reads the unbound name [mp]; it is never a value. *)
Theorem cnn_is_rnn_default_raises (u : seq F) :
  causal_convolution u (K_conv Ab Bb Cb (size u)) false =
    (_ <- rfft (np_pad u (size u)) ;; Raise (NameError "mp"))
  /\ is_ok (causal_convolution u (K_conv Ab Bb Cb (size u)) false) = false.
Proof.
by rewrite causal_convolution_fft_not_ok causal_convolution_fft size_K_conv eqxx.
Qed.

End Equivalence.

(** The test of the notebook never reaches its last line: its call of the
    convolution raises, when the run of the recurrence before it did not. *)
Lemma test_cnn_is_rnn_raises (A : 'M[F]_N) (B : 'cV[F]_N) (C : 'rV[F]_N)
    (u : seq F) (step : F) :
  test_cnn_is_rnn A B C u step =
    if size u == 0%N then Raise ZeroDivisionError
    else _ <- rfft (np_pad u (size u)) ;; Raise (NameError "mp").
Proof.
rewrite /test_cnn_is_rnn /run_SSM /py_inverse; case: (size u == 0%N) => //.
rewrite /discretize /bind.
by rewrite causal_convolution_fft size_K_conv eqxx; case: (rfft _).
Qed.

(** ** Properties of the norm *)

Lemma mx_norm_ge0 m n (M : 'M[F]_(m, n)) : 0 <= mx_norm M.
Proof. by apply: sumr_ge0 => i _; apply: sumr_ge0 => j _. Qed.

Lemma mx_norm0 m n : mx_norm (0 : 'M[F]_(m, n)) = 0.
Proof.
by rewrite /mx_norm big1 // => i _; rewrite big1 // => j _; rewrite mxE normr0.
Qed.

Lemma mx_normD m n (A B : 'M[F]_(m, n)) :
  mx_norm (A + B) <= mx_norm A + mx_norm B.
Proof.
rewrite /mx_norm -big_split /=; apply: ler_sum => i _.
rewrite -big_split /=; apply: ler_sum => j _.
by rewrite mxE ler_normD.
Qed.

Lemma mx_normZ m n (a : F) (A : 'M[F]_(m, n)) :
  mx_norm (a *: A) = `|a| * mx_norm A.
Proof.
rewrite /mx_norm mulr_sumr; apply: eq_bigr => i _.
by rewrite mulr_sumr; apply: eq_bigr => j _; rewrite mxE normrM.
Qed.

Lemma row_norm_le m n (B : 'M[F]_(m, n)) (k : 'I_m) :
  \sum_j `|B k j| <= mx_norm B.
Proof.
rewrite /mx_norm (bigD1 k) //= lerDl.
by apply: sumr_ge0 => i _; apply: sumr_ge0 => j _.
Qed.

Lemma entry_le_norm m n (M : 'M[F]_(m, n)) i j : `|M i j| <= mx_norm M.
Proof.
apply: le_trans (row_norm_le M i); rewrite (bigD1 j) //= lerDl.
by apply: sumr_ge0 => k _.
Qed.

Lemma mx_norm_le0 m n (M : 'M[F]_(m, n)) : mx_norm M <= 0 -> M = 0.
Proof.
move=> le0; apply/matrixP => i j; rewrite mxE; apply/eqP.
by rewrite -normr_le0; apply: le_trans le0; apply: entry_le_norm.
Qed.

Lemma mx_normM m n p (A : 'M[F]_(m, n)) (B : 'M[F]_(n, p)) :
  mx_norm (A *m B) <= mx_norm A * mx_norm B.
Proof.
rewrite /mx_norm mulr_suml; apply: ler_sum => i _.
apply: (@le_trans _ _ (\sum_j \sum_k `|A i k| * `|B k j|)).
  apply: ler_sum => j _; rewrite mxE; apply: le_trans (ler_norm_sum _ _ _) _.
  by apply: ler_sum => k _; rewrite normrM.
rewrite exchange_big /= mulr_suml; apply: ler_sum => k _.
by rewrite -mulr_sumr; apply: ler_wpM2l => //; apply: row_norm_le.
Qed.

(** ** The discretization for small steps *)

(** Left multiplication by [I - h A] shrinks a norm by at most a half when
    [h |A| <= 1/2]. *)
Lemma mx_norm_near_identity (A : 'M[F]_N) (h : F) (X : 'M[F]_N) :
  0 <= h -> h * mx_norm A <= 1 / 2%:R ->
  mx_norm X <= mx_norm (X *m (1%:M - h *: A)) * 2%:R.
Proof.
move=> h_ge0 le_ha; rewrite -ler_pdivrMr ?ltr0n //.
set M := 1%:M - h *: A.
have le_hXA: mx_norm (h *: (X *m A)) <= mx_norm X / 2%:R.
  rewrite mx_normZ ger0_norm //.
  apply: le_trans (ler_wpM2l h_ge0 (mx_normM X A)) _.
  by rewrite mulrCA ler_wpM2l ?mx_norm_ge0 // -div1r.
have eqX: X = X *m M + h *: (X *m A).
  by rewrite mulmxBr mulmx1 -scalemxAr subrK.
have: mx_norm X <= mx_norm (X *m M) + mx_norm X / 2%:R.
  rewrite [X in mx_norm X <= _]eqX; apply: le_trans (mx_normD _ _) _.
  by rewrite lerD2l.
by rewrite [X in X <= _]splitr lerD2r.
Qed.

Lemma unitmx_near_identity (A : 'M[F]_N) (h : F) :
  0 <= h -> h * mx_norm A <= 1 / 2%:R -> (1%:M - h *: A) \in unitmx.
Proof.
move=> h_ge0 le_ha; rewrite -row_free_unit -kermx_eq0; apply/eqP.
apply: mx_norm_le0; apply: le_trans (mx_norm_near_identity _ h_ge0 le_ha) _.
by rewrite mulmx_ker mx_norm0 mul0r.
Qed.

Lemma discretize_Ab_sub1 (A : 'M[F]_N) (step : F) :
  (1%:M - (step / 2%:R) *: A) \in unitmx ->
  invmx (1%:M - (step / 2%:R) *: A) *m (1%:M + (step / 2%:R) *: A) - 1%:M =
    step *: (invmx (1%:M - (step / 2%:R) *: A) *m A).
Proof.
move=> unitM; rewrite -[X in _ - X](mulVmx unitM) -mulmxBr.
rewrite opprD opprK addrACA subrr add0r -scalerDl -splitr.
by rewrite -scalemxAr.
Qed.

(** C9: for every [A] and every [eps > 0] there is [delta > 0] such that,
    for every step with [0 < step < delta], [discretize] returns an [Ab]
    with [|Ab - I| < eps]; [inv] is assumed to return the inverse of an
    invertible matrix, and [I - step/2 A] is invertible for such steps. *)
Theorem discretize_step_to_zero (A : 'M[F]_N) (eps : F) :
  inv_spec -> 0 < eps ->
  exists2 delta : F, 0 < delta &
    forall (B : 'cV[F]_N) (C : 'rV[F]_N) (step : F),
      0 < step -> step < delta ->
      exists Ab Bb Cb,
        discretize A B C step = Ok (Ab, Bb, Cb) /\ mx_norm (Ab - 1%:M) < eps.
Proof.
move=> inv_ok eps_gt0.
pose c := mx_norm (1%:M : 'M[F]_N) * 2%:R * mx_norm A.
have c_ge0: 0 <= c by rewrite !mulr_ge0 ?mx_norm_ge0 ?ler0n.
pose D := 1 + (mx_norm A + c).
have D_gt0: 0 < D.
  by apply: lt_le_trans ltr01 _; rewrite lerDl addr_ge0 ?mx_norm_ge0.
exists (Num.min 1 eps / D); first by rewrite divr_gt0 // lt_min ltr01.
move=> B C step step_gt0; rewrite ltr_pdivlMr // lt_min => /andP[lt_1 lt_eps].
have step_ge0 := ltW step_gt0.
have le_sA: step * mx_norm A <= 1.
  apply: ltW (le_lt_trans _ lt_1); rewrite ler_wpM2l //.
  apply: (@le_trans _ _ (mx_norm A + c)); first by rewrite lerDl.
  by rewrite lerDr ler01.
have h_ge0: 0 <= step / 2%:R by rewrite divr_ge0 ?ler0n.
have le_hA: step / 2%:R * mx_norm A <= 1 / 2%:R.
  by rewrite mulrAC ler_wpM2r ?invr_ge0 ?ler0n.
have unitM := unitmx_near_identity h_ge0 le_hA.
do 3!eexists; split; first by rewrite /discretize (inv_ok _ unitM).
rewrite discretize_Ab_sub1 // mx_normZ gtr0_norm //.
apply: le_lt_trans lt_eps; rewrite ler_wpM2l //.
apply: le_trans (mx_normM _ _) _.
have le_BL := mx_norm_near_identity (invmx (1%:M - step / 2%:R *: A)) h_ge0 le_hA.
rewrite mulVmx // in le_BL.
apply: le_trans (ler_wpM2r (mx_norm_ge0 A) le_BL) _.
by rewrite -/c /D addrA lerDr addr_ge0 ?ler01 ?mx_norm_ge0.
Qed.

(** ** The HiPPO matrix *)

Lemma make_HiPPO_entry (i j : 'I_N) :
  make_HiPPO i j =
    - ((if (j <= i)%N then hippo_M i j else 0)
       - (if i == j then (i : nat)%:R else 0)).
Proof.
rewrite /make_HiPPO /hippo_M /hippo_P !mxE /=.
by case: (j <= i)%N; case: eqP => // _; rewrite ?mulr1n ?mulr0n.
Qed.

(** C8: [make_HiPPO] is the matrix [-(tril(M) - diag(0, 1, .., N-1))]
    with [M[i,j] = P[i] P[j]] and [P[i] = sqrt(1 + 2i)]: a function of [N]
    (and of the library's [sqrt]) alone, so two calls with the same [N]
    give the same matrix. *)
Theorem make_HiPPO_correct : make_HiPPO = HiPPO_spec.
Proof. by apply/matrixP=> i j; rewrite make_HiPPO_entry mxE. Qed.

(** ** The recurrence in chunks, and as a linear map *)

Section Streaming.

Variables (Ab : 'M[F]_N) (Bb : 'cV[F]_N) (Cb : 'rV[F]_N).

Lemma size_scan_SSM (u : seq F) (x0 : 'cV[F]_N) :
  size (scan_SSM Ab Bb Cb u x0).2 = size u.
Proof. by rewrite scan_SSM_states size_map size_iota. Qed.

(** X5: an input given in two chunks, the second run started from the state
    the first run returned, gives the state and the outputs of one run. *)
Theorem scan_SSM_cat (u v : seq F) (x0 : 'cV[F]_N) :
  scan_SSM Ab Bb Cb (u ++ v) x0 =
    ((scan_SSM Ab Bb Cb v (scan_SSM Ab Bb Cb u x0).1).1,
     (scan_SSM Ab Bb Cb u x0).2
       ++ (scan_SSM Ab Bb Cb v (scan_SSM Ab Bb Cb u x0).1).2).
Proof.
elim: u x0 => [|a u IHu] x0; first by rewrite cat0s; case: (scan_SSM _ _ _ v x0).
by rewrite cat_cons !scan_SSM_cons IHu.
Qed.

Lemma scan_SSM_add (u v : seq F) (x0 x0' : 'cV[F]_N) :
  size u = size v ->
  scan_SSM Ab Bb Cb (add_arrays u v) (x0 + x0') =
    ((scan_SSM Ab Bb Cb u x0).1 + (scan_SSM Ab Bb Cb v x0').1,
     add_arrays (scan_SSM Ab Bb Cb u x0).2 (scan_SSM Ab Bb Cb v x0').2).
Proof.
elim: u v x0 x0' => [|a u IHu] [|b v] x0 x0' //= [eq_uv].
rewrite /add_arrays /= -/(add_arrays u v) !scan_SSM_cons /=.
have ->: Ab *m (x0 + x0') + Bb *m (a + b)%:M =
         (Ab *m x0 + Bb *m a%:M) + (Ab *m x0' + Bb *m b%:M).
  by rewrite mulmxDr raddfD /= mulmxDr addrACA.
by rewrite IHu //= mulmxDr.
Qed.

Lemma scan_SSM_scale (c : F) (u : seq F) (x0 : 'cV[F]_N) :
  scan_SSM Ab Bb Cb [seq c * a | a <- u] (c *: x0) =
    (c *: (scan_SSM Ab Bb Cb u x0).1,
     [seq c *: y | y <- (scan_SSM Ab Bb Cb u x0).2]).
Proof.
elim: u x0 => [|a u IHu] x0 //=.
rewrite !scan_SSM_cons /=.
have ->: Ab *m (c *: x0) + Bb *m (c * a)%:M = c *: (Ab *m x0 + Bb *m a%:M).
  by rewrite -scalemxAr !mul_mx_scalar scalerDr scalerA.
by rewrite IHu /= -scalemxAr.
Qed.

(** X6: superposition.  The run on [a u + b v] from the state
    [a x0 + b x0'] is [a] times the run on [u] from [x0] plus [b] times the
    run on [v] from [x0'], final state and outputs alike. *)
Theorem scan_SSM_superposition (a b : F) (u v : seq F) (x0 x0' : 'cV[F]_N) :
  size u = size v ->
  scan_SSM Ab Bb Cb (add_arrays [seq a * c | c <- u] [seq b * c | c <- v])
      (a *: x0 + b *: x0') =
    (a *: (scan_SSM Ab Bb Cb u x0).1 + b *: (scan_SSM Ab Bb Cb v x0').1,
     add_arrays [seq a *: y | y <- (scan_SSM Ab Bb Cb u x0).2]
                [seq b *: y | y <- (scan_SSM Ab Bb Cb v x0').2]).
Proof.
by move=> eq_uv; rewrite scan_SSM_add ?size_map // !scan_SSM_scale.
Qed.

(** X7: the kernel is the impulse response.  From the zero state, the run
    on a one followed by [L] zeros outputs the kernel of length [L + 1]. *)
Theorem scan_SSM_impulse (L : nat) :
  ravel (scan_SSM Ab Bb Cb (1 :: nseq L 0) 0).2 = K_conv Ab Bb Cb L.+1.
Proof.
apply: (@eq_from_nth _ 0) => [|n].
  by rewrite size_K_conv /ravel size_map size_scan_SSM /= size_nseq.
rewrite /ravel size_map size_scan_SSM => lt_n.
rewrite -/(ravel _) nth_scan_SSM // big_ord_recl /= subn0 mul1r.
rewrite big1 ?addr0 ?size_nseq // => j _.
by rewrite /bump /= add1n /= nth_nseq if_same mul0r.
Qed.

Lemma states_nseq0 (L : nat) (x0 : 'cV[F]_N) (k : nat) :
  states Ab Bb (nseq L 0) x0 k = matrix_power Ab k *m x0.
Proof.
elim: k => [|k IHk] /=; first by rewrite mul1mx.
by rewrite IHk nth_nseq if_same mul_mx_scalar scale0r addr0 mulmxA.
Qed.

(** X8: the free response.  On an input of [L] zeros the run from [x0]
    ends in [Ab^L x0] and outputs [Cb Ab^k x0] for [k = 1 .. L]. *)
Theorem scan_SSM_free (L : nat) (x0 : 'cV[F]_N) :
  scan_SSM Ab Bb Cb (nseq L 0) x0 =
    (matrix_power Ab L *m x0,
     [seq Cb *m (matrix_power Ab k.+1 *m x0) | k <- iota 0 L]).
Proof.
rewrite scan_SSM_states size_nseq states_nseq0; congr (_, _).
by apply: eq_map => k; rewrite states_nseq0.
Qed.

(** The outputs of the run from the zero state, as the sums the direct
    mode of the convolution computes. *)
Lemma ravel_scan_SSM (u : seq F) :
  ravel (scan_SSM Ab Bb Cb u 0).2 =
    mkseq (fun n => \sum_(m < n.+1)
                      nth 0 (K_conv Ab Bb Cb (size u)) m * nth 0 u (n - m))
          (size u).
Proof.
apply: (@eq_from_nth _ 0) => [|n].
  by rewrite size_mkseq /ravel size_map size_scan_SSM.
rewrite /ravel size_map size_scan_SSM => lt_nu.
by rewrite -/(ravel _) nth_mkseq // nth_scan_SSM // convolve_sumC.
Qed.

End Streaming.

(** ** The discretized system and the trapezoidal rule *)

(** X9: one step of the recurrence of the discretized system is one step of
    the trapezoidal rule for [x' = A x + B u]:
    [x_k - x_(k-1) = step/2 A (x_k + x_(k-1)) + step u_k B]. *)
Theorem discretize_trapezoid (A : 'M[F]_N) (B : 'cV[F]_N) (C : 'rV[F]_N)
    (step : F) :
  inv_spec -> (1%:M - (step / 2%:R) *: A) \in unitmx ->
  exists Ab Bb Cb,
    discretize A B C step = Ok (Ab, Bb, Cb)
    /\ forall (x : 'cV[F]_N) (u_k : F),
         let x_k := (step_SSM Ab Bb Cb x u_k).1 in
         x_k - x = (step / 2%:R) *: (A *m (x_k + x)) + (step * u_k) *: B.
Proof.
move=> inv_ok unitM; rewrite /discretize (inv_ok _ unitM) times_scalarE.
set h := step / 2%:R; set M := 1%:M - h *: A.
do 3!eexists; split=> // x u_k /=.
set s := (step * u_k) *: B; set x_k := _ *m x + _.
have def_xk: x_k = invmx M *m ((1%:M + h *: A) *m x + s).
  rewrite /x_k mul_mx_scalar [in RHS]mulmxDr mulmxA -scalemxAl scalerA /s.
  by rewrite -!scalemxAr [u_k * _]mulrC.
have: M *m x_k = (1%:M + h *: A) *m x + s by rewrite def_xk mulKVmx.
rewrite mulmxBl mulmxDl !mul1mx -!scalemxAl => /eqP.
rewrite subr_eq => /eqP eq_xk; apply/eqP; rewrite subr_eq; apply/eqP.
rewrite {1}eq_xk mulmxDr scalerDr [RHS]addrC -!addrA; congr (_ + _).
by rewrite [RHS]addrC -addrA.
Qed.

(** ** The run of a continuous system *)

Section Run.

Variables (A : 'M[F]_N) (B : 'cV[F]_N) (C : 'rV[F]_N).

Lemma run_SSM_nonempty (u : seq F) :
  (0 < size u)%N ->
  run_SSM A B C u =
    (ssmb <- discretize A B C (1 / (size u)%:R) ;;
     Ok (scan_SSM ssmb.1.1 ssmb.1.2 ssmb.2 u 0).2).
Proof. by rewrite /run_SSM /py_inverse lt0n => /negPf ->. Qed.

(** X3: [run_SSM] divides by the length of its input: on the empty input it
    raises [ZeroDivisionError], on any other it returns as many outputs as
    it was given inputs, whatever the system. *)
Theorem run_SSM_length (u : seq F) :
  run_SSM A B C [::] = Raise ZeroDivisionError
  /\ ((0 < size u)%N ->
      exists2 y, run_SSM A B C u = Ok y & size y = size u).
Proof.
split=> // u_gt0; rewrite run_SSM_nonempty //=; eexists; first by [].
by rewrite size_scan_SSM.
Qed.


End Run.

(** ** The HiPPO matrix in the discretization *)

Lemma make_HiPPO_trig : is_trig_mx make_HiPPO.
Proof.
apply/is_trig_mxP => i j lt_ij; rewrite make_HiPPO_entry.
by rewrite leqNgt lt_ij /= (negPf (_ : i != j)) ?subrr ?oppr0 // neq_ltn lt_ij.
Qed.

Lemma sub1_scale_entry (H : 'M[F]_N) (h : F) (i j : 'I_N) :
  (1%:M - h *: H) i j = (i == j)%:R - h * H i j.
Proof. by rewrite !mxE. Qed.

(** X11: when the squares of the computed roots are not below their index,
    [sqrt(1 + 2i)^2 >= i], the matrix [I - h A] of the HiPPO matrix [A] is
    lower triangular, its entries above the diagonal being zero, and
    invertible for every [h >= 0]: the discretization of a HiPPO system
    meets no singular matrix, whatever the step. *)
Theorem make_HiPPO_unit (h : F) :
  (forall i : 'I_N, (i : nat)%:R <= sqrt (1 + 2%:R * i%:R) ^+ 2) ->
  0 <= h ->
  (forall i j : 'I_N, (i < j)%N -> (1%:M - h *: make_HiPPO) i j = 0)
  /\ (1%:M - h *: make_HiPPO) \in unitmx.
Proof.
move=> sqrt_ok h_ge0.
have trigM: is_trig_mx (1%:M - h *: make_HiPPO).
  apply/is_trig_mxP => i j lt_ij; rewrite sub1_scale_entry.
  have /is_trig_mxP/(_ i j lt_ij) -> := make_HiPPO_trig.
  by rewrite mulr0 subr0 (negPf (_ : i != j)) // neq_ltn lt_ij.
split; first exact/is_trig_mxP.
rewrite unitmxE unitfE det_trig //.
apply/prodf_neq0 => i _; rewrite sub1_scale_entry eqxx make_HiPPO_entry.
rewrite leqnn eqxx /hippo_M /hippo_P -expr2 mulrN opprK gt_eqF //.
by rewrite ltr_pwDl ?ltr01 // mulr_ge0 // subr_ge0 sqrt_ok.
Qed.

(** ** The direct mode of the causal convolution *)

(** X12: the direct mode is causal.  Cutting the input after [k >= 1]
    entries cuts the output after [k] entries, and changes nothing else:
    the first [k] outputs depend on the first [k] inputs only. *)
Theorem causal_convolution_prefix (u K : seq F) (k : nat) :
  (0 < k)%N ->
  causal_convolution (take k u) K true =
    (y <- causal_convolution u K true ;; Ok (take k y)).
Proof.
move=> k_gt0; case: (posnP (size u)) => [u0|u_gt0].
  by rewrite (size0nil u0).
case: (posnP (size K)) => [K0|K_gt0].
  by rewrite /causal_convolution !convolve_empty // K0 orbT.
have tu_gt0: (0 < size (take k u))%N by rewrite size_take_min leq_min k_gt0.
rewrite !causal_convolution_nofft // /bind; congr Ok.
apply: (@eq_from_nth _ 0) => [|n].
  by rewrite size_mkseq size_take_min size_take_min size_mkseq.
rewrite size_mkseq size_take_min leq_min => /andP[lt_nk lt_nu].
rewrite nth_mkseq ?size_take_min ?leq_min ?lt_nk // nth_take // nth_mkseq //.
apply: eq_bigr => m _; rewrite nth_take //.
by apply: leq_ltn_trans lt_nk; apply: leq_subr.
Qed.

(** X13: the direct mode reads no entry of the kernel past the length of the
    input: a longer kernel gives what its first [len(u)] entries give. *)
Theorem causal_convolution_kernel_tail (u K : seq F) :
  causal_convolution u K true = causal_convolution u (take (size u) K) true.
Proof.
case: (posnP (size u)) => [u0|u_gt0].
  by rewrite /causal_convolution !convolve_empty // u0.
case: (posnP (size K)) => [K0|K_gt0]; first by rewrite (size0nil K0).
have tK_gt0: (0 < size (take (size u) K))%N.
  by rewrite size_take_min leq_min u_gt0.
rewrite !causal_convolution_nofft //; congr Ok.
apply/eq_in_map => n; rewrite mem_iota add0n => /andP[_ lt_nu].
apply: eq_bigr => m _; rewrite nth_take //.
by apply: leq_ltn_trans lt_nu; rewrite -ltnS.
Qed.

(** X14: the kernel that is a one followed by zeros is the identity of the
    direct mode. *)
Theorem causal_convolution_delta (u : seq F) (k : nat) :
  (0 < size u)%N -> causal_convolution u (1 :: nseq k 0) true = Ok u.
Proof.
move=> u_gt0; rewrite causal_convolution_nofft //; congr Ok.
apply: (@eq_from_nth _ 0) => [|n]; rewrite size_mkseq // => lt_nu.
rewrite nth_mkseq // big_ord_recl /= subn0 mul1r big1 ?addr0 // => j _.
by rewrite /bump /= add1n /= nth_nseq if_same mul0r.
Qed.

(** ** The notebook's test *)

(** X4: the test of the notebook passes for no draw and no step: on an
    empty input its run of the recurrence divides by zero, on any other
    its call of the convolution raises. *)
Theorem test_cnn_is_rnn_fails (A : 'M[F]_N) (B : 'cV[F]_N) (C : 'rV[F]_N)
    (u : seq F) (step : F) :
  test_cnn_is_rnn A B C [::] step = Raise ZeroDivisionError
  /\ is_ok (test_cnn_is_rnn A B C u step) = false.
Proof.
split=> //; rewrite /test_cnn_is_rnn /run_SSM /py_inverse.
case: (size u == 0%N) => //; rewrite /discretize /bind.
by rewrite causal_convolution_fft size_K_conv eqxx; case: (rfft _).
Qed.

(** ** The layer *)

Lemma add_arrays_cat (V : zmodType) (x1 x2 y1 y2 : seq V) :
  size x1 = size y1 ->
  add_arrays (x1 ++ x2) (y1 ++ y2) = add_arrays x1 y1 ++ add_arrays x2 y2.
Proof. by move=> eq_xy; rewrite /add_arrays zip_cat // map_cat. Qed.

Lemma scan_cat (C X Y : Type) (f : C -> X -> C * Y) (c : C) (xs ys : seq X) :
  scan f c (xs ++ ys) =
    ((scan f (scan f c xs).1 ys).1,
     (scan f c xs).2 ++ (scan f (scan f c xs).1 ys).2).
Proof.
elim: xs c => [|x xs IHxs] c /=; first by case: (scan f c ys).
by case: (f c x) => c1 y; rewrite IHxs; case: (scan f c1 xs).
Qed.

(** X15: a layer that is not in decode mode never returns: its call of the
    convolution is in the default mode. *)
Theorem SSMLayer_call_cnn (p : SSMLayer_params F N) (l_max : nat)
    (mutable_cache : bool) (x_k_1 : 'cV[F]_N) (u : seq F) :
  is_ok (SSMLayer_call p l_max false mutable_cache x_k_1 u) = false.
Proof.
rewrite /SSMLayer_call /SSMLayer_setup /discretize /bind.
rewrite [negb false]/= causal_convolution_fft.
by case: ifP => // _; case: (rfft _).
Qed.

(** X16: decode mode with a mutable cache streams.  A call on [u] and then a
    call on [v] from the cache the first one left give the outputs and the
    cache of one call on [u ++ v]. *)
Theorem SSMLayer_call_stream (p : SSMLayer_params F N) (l_max : nat)
    (x_k_1 : 'cV[F]_N) (u v : seq F) :
  SSMLayer_call p l_max true true x_k_1 (u ++ v) =
    (r1 <- SSMLayer_call p l_max true true x_k_1 u ;;
     r2 <- SSMLayer_call p l_max true true r1.2 v ;;
     Ok (r1.1 ++ r2.1, r2.2)).
Proof.
rewrite /SSMLayer_call /SSMLayer_setup /discretize /bind [negb true]/=.
set Ab := _ *m _; set Bb := _ *m _.
have := size_scan_SSM Ab Bb (param_C p) u x_k_1.
rewrite /scan_SSM scan_cat.
case: (scan _ _ u) => x1 y1 /= size_y1.
case: (scan _ _ v) => x2 y2 /=.
by rewrite /ravel !map_cat add_arrays_cat // !size_map.
Qed.


End SSM.

(** ** The powers of a matrix *)

(** On square matrices of positive size, which form a ring, [matrix_power]
    is the power of the ring. *)
Lemma matrix_powerE (F : realFieldType) (n : nat) (M : 'M[F]_n.+1) (l : nat) :
  matrix_power M l = M ^+ l.
Proof. by elim: l => [|l IHl] /=; rewrite ?expr0 // exprS IHl. Qed.

(** What [matrix_power] computes is the power of the specification, for
    every size. *)
Lemma matrix_power_mx_power (F : realFieldType) (N : nat) (M : 'M[F]_N)
    (l : nat) :
  matrix_power M l = mx_power M l.
Proof.
case: N M => [|n] M; last exact: matrix_powerE.
by rewrite [LHS]flatmx0 [RHS]flatmx0.
Qed.

(** C4: the kernel has length [L], its entry [l] is the scalar
    [Cb Ab^l Bb] for every [l < L], with [Ab^l] the power of the matrix
    ring, and it is empty for [L = 0]. *)
Theorem K_conv_correct (F : realFieldType) (N : nat) (Ab : 'M[F]_N)
    (Bb : 'cV[F]_N) (Cb : 'rV[F]_N) (L : nat) :
  [/\ size (K_conv Ab Bb Cb L) = L,
      forall l, (l < L)%N ->
        nth 0 (K_conv Ab Bb Cb L) l = (Cb *m mx_power Ab l *m Bb) 0 0
    & K_conv Ab Bb Cb 0 = [::]].
Proof.
split=> // [|l lt_lL]; first exact: size_K_conv.
by rewrite nth_K_conv // matrix_power_mx_power.
Qed.

(** X19: the kernel of a system with one state has the entries
    [c a^l b], for [l < L]. *)
Lemma K_conv_scalar (F : realFieldType) (a b c : F) (L : nat) :
  K_conv (a%:M : 'M[F]_1) b%:M c%:M L = [seq c * a ^+ l * b | l <- iota 0 L].
Proof.
apply: eq_map => l; rewrite matrix_powerE -rmorphXn /= -!scalar_mxM.
by rewrite mxE eqxx mulr1n.
Qed.

(** ** Concrete instances *)

Lemma inv_spec_invmx (F : realFieldType) (N : nat) : inv_spec (@invmx F N).
Proof. by []. Qed.

Lemma A_mass_step_small : step_mass / 2%:R * mx_norm A_mass <= 1 / 2%:R.
Proof.
rewrite /mx_norm !big_ord_recl !big_ord0 !mxE.
vm_compute; reflexivity.
Qed.

Lemma step_mass_half_ge0 : 0 <= step_mass / 2%:R.
Proof. vm_compute; reflexivity. Qed.

Lemma A_mass_unit : (1%:M - (step_mass / 2%:R) *: A_mass) \in unitmx.
Proof. exact: (unitmx_near_identity step_mass_half_ge0 A_mass_step_small). Qed.

(** C2 at the mass on a spring, with the step of the notebook's example. *)
Lemma discretize_bilinear_mass :
  exists BL : 'M[rat]_2,
    [/\ BL *m (1%:M - (step_mass / 2%:R) *: A_mass) = 1%:M,
        (1%:M - (step_mass / 2%:R) *: A_mass) *m BL = 1%:M
      & discretize invmx A_mass B_mass C_mass step_mass =
          Ok (BL *m (1%:M + (step_mass / 2%:R) *: A_mass),
              step_mass *: (BL *m B_mass), C_mass)].
Proof.
exact: (discretize_bilinear B_mass C_mass (@inv_spec_invmx rat 2) A_mass_unit).
Defined.

(** C9 at the mass on a spring, for the tolerance 1. *)
Lemma discretize_step_to_zero_mass :
  exists2 delta : rat, 0 < delta &
    forall (B : 'cV[rat]_2) (C : 'rV[rat]_2) (step : rat),
      0 < step -> step < delta ->
      exists Ab Bb Cb,
        discretize invmx A_mass B C step = Ok (Ab, Bb, Cb)
        /\ mx_norm (Ab - 1%:M) < 1.
Proof.
exact: (discretize_step_to_zero A_mass (@inv_spec_invmx rat 2) ltr01).
Defined.

(** C3 fails on the code: [I - step/2 A] is singular here, and [discretize]
    returns a value all the same. *)
Lemma discretize_singular_returns :
  (1%:M - (1 / 2%:R) *: A_singular) \notin unitmx
  /\ is_ok (discretize invmx A_singular B_mass C_mass 1) = true.
Proof.
split=> //; rewrite /A_singular -(scalemx1 _ 2%:R) scalerA divfK ?pnatr_eq0 //.
by rewrite scale1r subrr unitmxE det0 unitr0.
Qed.

(** C4 at the mass on a spring: a kernel of length 3 and its last entry. *)
Lemma K_conv_mass :
  size (K_conv A_mass B_mass C_mass 3) = 3
  /\ nth 0 (K_conv A_mass B_mass C_mass 3) 2 =
       (C_mass *m A_mass ^+ 2 *m B_mass) 0 0.
Proof.
have [size_K nth_K _] := K_conv_correct A_mass B_mass C_mass 3.
by split; [exact: size_K | exact: nth_K].
Defined.

(** C5 fails on the code: the lengths differ, and the direct mode returns
    a value. *)
Lemma causal_convolution_nofft_mismatch :
  size K_ex != size u_ex
  /\ is_ok (causal_convolution (@signal_rfft rat) (@signal_irfft rat)
              (@circular_convolve rat) u_ex K_ex true) = true.
Proof. by split=> //; rewrite causal_convolution_nofft. Qed.

(** C5, as the code has it, at the same arrays. *)
Lemma causal_convolution_shapes_ex :
  causal_convolution (@signal_rfft rat) (@signal_irfft rat)
    (@circular_convolve rat) u_ex K_ex false = Raise AssertionError
  /\ is_ok (causal_convolution (@signal_rfft rat) (@signal_irfft rat)
              (@circular_convolve rat) u_ex K_ex true) = true.
Proof.
split.
  exact: (proj1 (causal_convolution_shapes (@signal_rfft rat)
                   (@signal_irfft rat) (@circular_convolve rat) u_ex K_ex) isT).
exact: (proj2 (causal_convolution_shapes (@signal_rfft rat)
                 (@signal_irfft rat) (@circular_convolve rat) u_ex K_ex)
          isT isT).
Defined.



(** The smallest run of the test: one state, one input.  The default mode
    raises [NameError], the direct mode returns the output of the scan. *)
Lemma cnn_is_rnn_smallest :
  let A : 'M[rat]_1 := 0 in
  let B : 'cV[rat]_1 := 1%:M in
  let C : 'rV[rat]_1 := 1%:M in
  let u : seq rat := [:: 1] in
  test_cnn_is_rnn invmx (@signal_rfft rat) (@signal_irfft rat)
    (@circular_convolve rat) A B C u 1 = Raise (NameError "mp")
  /\ causal_convolution (@signal_rfft rat) (@signal_irfft rat)
       (@circular_convolve rat) u [:: 1] false = Raise (NameError "mp")
  /\ causal_convolution (@signal_rfft rat) (@signal_irfft rat)
       (@circular_convolve rat) u [:: 1] true = Ok [:: 1].
Proof.
split; first by rewrite test_cnn_is_rnn_raises.
split; first by rewrite causal_convolution_fft.
rewrite causal_convolution_nofft //= /mkseq /= big_ord_recl big_ord0 /=.
by rewrite mulr1 addr0.
Qed.

(** ** The mass on a spring in the discretization *)

Lemma det_2x2 (R : comRingType) (M : 'M[R]_2) :
  \det M = M 0 0 * M 1 1 - M 0 1 * M 1 0.
Proof.
rewrite (expand_det_row M 0) !big_ord_recl big_ord0 /cofactor !det_mx11 !mxE /=.
have ->: lift 0 0 = 1 :> 'I_2 by apply/val_inj.
have ->: lift (1 : 'I_2) 0 = 0 :> 'I_2 by apply/val_inj.
by rewrite /bump /= !add0n expr0 expr1 mul1r addr0 mulN1r mulrN.
Qed.

Section MassSpring.

Variable F : realFieldType.

Lemma example_mass_A (k b m : F) (i j : 'I_2) :
  (example_mass k b m).1.1 i j =
    nth 0 (nth [::] [:: [:: 0; 1]; [:: - k / m; - b / m]] i) j.
Proof. by rewrite /example_mass /np_array mxE. Qed.

(** X10: for a spring constant and a friction that are not negative and a
    positive mass, the matrix [I - h A] of the mass on a spring is
    invertible for every [h >= 0]: its determinant is
    [1 + h b/m + h^2 k/m].  The discretization of this system meets no
    singular matrix, whatever the step. *)
Theorem example_mass_unit (k b m h : F) :
  0 <= k -> 0 <= b -> 0 < m -> 0 <= h ->
  \det (1%:M - h *: (example_mass k b m).1.1) =
    1 + h * (b / m) + h * (h * (k / m))
  /\ (1%:M - h *: (example_mass k b m).1.1) \in unitmx.
Proof.
move=> k_ge0 b_ge0 m_gt0 h_ge0.
have det_eq: \det (1%:M - h *: (example_mass k b m).1.1) =
             1 + h * (b / m) + h * (h * (k / m)).
  rewrite det_2x2 !sub1_scale_entry !example_mass_A /=.
  by rewrite mulr0 subr0 mul1r mulr1 !sub0r !mulNr !mulrN !opprK.
split=> //; rewrite unitmxE unitfE det_eq.
apply/negbT/gt_eqF; rewrite -addrA ltr_pwDl ?ltr01 //.
have m_ge0 := ltW m_gt0.
have hb_ge0: 0 <= h * (b / m) by apply: mulr_ge0 => //; apply: divr_ge0.
have hk_ge0: 0 <= h * (h * (k / m)).
  by do 2![apply: mulr_ge0 => //]; apply: divr_ge0.
by rewrite addr_ge0.
Qed.

End MassSpring.

(** ** Instances of the further properties *)

Local Notation conv_rat :=
  (causal_convolution (@signal_rfft rat) (@signal_irfft rat)
     (@circular_convolve rat)).

Local Notation call_rat :=
  (SSMLayer_call invmx (@signal_rfft rat) (@signal_irfft rat)
     (@circular_convolve rat) (@exp1 rat)).

(** The two evaluations agree on the mass on a spring, in direct mode. *)
Lemma cnn_is_rnn_nofft_mass :
  conv_rat u_ex (K_conv A_mass B_mass C_mass (size u_ex)) true =
    Ok (ravel (scan_SSM A_mass B_mass C_mass u_ex 0).2).
Proof.
exact: (cnn_is_rnn_nofft (@signal_rfft rat) (@signal_irfft rat)
          (@circular_convolve rat) A_mass B_mass C_mass (u := u_ex) isT).
Defined.

Lemma run_SSM_length_mass :
  run_SSM invmx A_mass B_mass C_mass [::] = Raise ZeroDivisionError
  /\ exists2 y,
       run_SSM invmx A_mass B_mass C_mass u_ex = Ok y & size y = size u_ex.
Proof.
split.
  exact: (proj1 (run_SSM_length invmx A_mass B_mass C_mass u_ex)).
exact: (proj2 (run_SSM_length invmx A_mass B_mass C_mass u_ex) isT).
Defined.


Lemma scan_SSM_superposition_mass :
  scan_SSM A_mass B_mass C_mass
      (add_arrays [seq 2%:R * c | c <- u_ex] [seq 3%:R * c | c <- v_ex])
      (2%:R *: B_mass + 3%:R *: 0) =
    (2%:R *: (scan_SSM A_mass B_mass C_mass u_ex B_mass).1
       + 3%:R *: (scan_SSM A_mass B_mass C_mass v_ex 0).1,
     add_arrays
       [seq 2%:R *: y | y <- (scan_SSM A_mass B_mass C_mass u_ex B_mass).2]
       [seq 3%:R *: y | y <- (scan_SSM A_mass B_mass C_mass v_ex 0).2]).
Proof.
exact: (scan_SSM_superposition A_mass B_mass C_mass 2%:R 3%:R
          (u := u_ex) (v := v_ex) B_mass 0 (erefl _)).
Defined.

Lemma discretize_trapezoid_mass :
  exists Ab Bb Cb,
    discretize invmx A_mass B_mass C_mass step_mass = Ok (Ab, Bb, Cb)
    /\ forall (x : 'cV[rat]_2) (u_k : rat),
         let x_k := (step_SSM Ab Bb Cb x u_k).1 in
         x_k - x =
           (step_mass / 2%:R) *: (A_mass *m (x_k + x))
           + (step_mass * u_k) *: B_mass.
Proof.
exact: (discretize_trapezoid B_mass C_mass (@inv_spec_invmx rat 2)
          A_mass_unit).
Defined.

Lemma sqrt1_upper (i : 'I_4) :
  (i : nat)%:R <= (sqrt1 (1 + 2%:R * i%:R) : rat) ^+ 2.
Proof.
by case: i => [[|[|[|[|i]]]] lt_i] //=; vm_compute.
Qed.

Lemma make_HiPPO_unit_4 :
  (forall i j : 'I_4, (i < j)%N ->
     (1%:M - (step_mass / 2%:R) *: make_HiPPO 4 (@sqrt1 rat)) i j = 0)
  /\ (1%:M - (step_mass / 2%:R) *: make_HiPPO 4 (@sqrt1 rat)) \in unitmx.
Proof. exact: (make_HiPPO_unit sqrt1_upper step_mass_half_ge0). Defined.

Lemma causal_convolution_prefix_ex :
  conv_rat (take 1 u_ex) K_ex true =
    (y <- conv_rat u_ex K_ex true ;; Ok (take 1 y)).
Proof.
exact: (causal_convolution_prefix (@signal_rfft rat) (@signal_irfft rat)
          (@circular_convolve rat) u_ex K_ex (k := 1) isT).
Defined.

Lemma causal_convolution_delta_ex :
  conv_rat u_ex (1 :: nseq 1 0) true = Ok u_ex.
Proof.
exact: (causal_convolution_delta (@signal_rfft rat) (@signal_irfft rat)
          (@circular_convolve rat) (u := u_ex) 1 isT).
Defined.


Lemma example_mass_unit_40_5_1 :
  \det (1%:M - (step_mass / 2%:R) *: (example_mass 40%:R 5%:R 1).1.1) =
    1 + step_mass / 2%:R * (5%:R / 1)
      + step_mass / 2%:R * (step_mass / 2%:R * (40%:R / 1))
  /\ (1%:M - (step_mass / 2%:R) *: (example_mass 40%:R 5%:R 1).1.1)
       \in unitmx.
Proof.
exact: (example_mass_unit (ler0n rat 40) (ler0n rat 5) ltr01
          step_mass_half_ge0).
Defined.
